(** * MeTA analyzers: feature extraction over documents and parse trees

    A shallow embedding of the analyzer framework of the toolkit
    (include/analyzers/analyzer.h), of the part-of-speech n-gram analyzer
    (analyzers/ngram/ngram_pos_analyzer.h) and of the tree-depth featurizer
    (src/parser/analyzers/featurizers/depth_featurizer.cpp), with the
    properties their specification states about them.

    The definitions come first: feature values and feature maps, parse
    trees and the height visitor, the analyzer interface, the n-gram
    analyzer over part-of-speech tags and the factory.  The lemmas and
    theorems follow. *)

From Stdlib Require Import ZArith Floats.PrimFloat.
From stdpp Require Import gmap strings list fin_maps pretty.

Local Open Scope Z_scope.

(** ** Feature values

    [analyzer<T>] is instantiated with the type of feature values.  The
    code only ever value-initialises a missing entry ([operator[]] of
    [std::unordered_map]) and adds one to it ([counts[rep] += 1]), so a
    feature value type is anything with these two operations. *)

Class feature_value (T : Type) := {
  fv_init : T;
  fv_add_one : T → T;
}.

(** [uint64_t]: an integer in [0, 2^64), addition wraps around. *)
Definition uint64_modulus : Z := 2 ^ 64.

Definition uint64_wrap (z : Z) : Z := z mod uint64_modulus.

#[export] Instance uint64_feature_value : feature_value Z := {|
  fv_init := 0;
  fv_add_one v := uint64_wrap (v + 1);
|}.

(** [double]: an IEEE 754 binary64 number, [+= 1] is floating-point addition. *)
#[export] Instance double_feature_value : feature_value float := {|
  fv_init := 0%float;
  fv_add_one v := PrimFloat.add v 1%float;
|}.

(** ** Feature maps

    [feature_map] is [std::unordered_map<std::string, T>]. *)

Section feature_map.
Context {T : Type} `{!feature_value T}.

(** [counts[key] += 1]: [operator[]] inserts a value-initialised entry
    when the key is missing, then one is added in place. *)
Definition increment (key : string) (counts : gmap string T) : gmap string T :=
  <[key := fv_add_one (default fv_init (counts !! key))]> counts.

(** A run of [counts[key] += 1] statements, in order. *)
Definition increment_all (keys : list string) (counts : gmap string T)
  : gmap string T :=
  foldl (λ acc key, increment key acc) counts keys.

End feature_map.

(** The sum of all counts of a map of [uint64_t] counts, as a
    mathematical integer: the number of occurrences the map records. *)
Definition total_count (counts : gmap string Z) : Z :=
  map_fold (λ _ v acc, v + acc) 0 counts.

(** Every count of the map is a [uint64_t] value. *)
Definition uint64_counts (counts : gmap string Z) : Prop :=
  map_Forall (λ _ v, 0 ≤ v < uint64_modulus) counts.

(** ** Parse trees (parser/trees)

    The featurizer includes the headers of the tree classes; the classes
    themselves are not among the sources at hand. *)

Module parser.

Local Unset Elimination Schemes.

(** Modelled from the spec: the two node classes [internal_node] and
    [leaf_node].  A parse tree is a rooted tree of two node shapes: an
    internal node with its ordered children and a leaf node with its
    label. *)
Inductive node : Type :=
| internal_node (children : list node)
| leaf_node (label : string).

(** Modelled from the spec: [parse_tree], a tree given by its root. *)
Record parse_tree : Type := { root : node }.

(** The induction principle that goes through the children. *)
Section node_ind.
Variable P : node → Prop.
Hypothesis P_internal :
  ∀ children, Forall P children → P (internal_node children).
Hypothesis P_leaf : ∀ label, P (leaf_node label).

Fixpoint node_ind (n : node) : P n :=
  match n with
  | internal_node children =>
      P_internal children
        ((fix go (l : list node) : Forall P l :=
            match l with
            | [] => Forall_nil_2 P
            | c :: l' => Forall_cons_2 P c l' (node_ind c) (go l')
            end) children)
  | leaf_node label => P_leaf label
  end.

End node_ind.

(** Modelled from the spec: [internal_node::each_child].
    [in.each_child(fn)] calls [fn] on every child, first to last; the
    state the closure captures by reference is threaded through. *)
Definition each_child {S : Type} (children : list node) (fn : S → node → S)
    (init : S) : S :=
  foldl fn init children.

(** Modelled from the spec: [parse_tree::visit] and [node::accept].
    [tree.visit(vtor)] is [root->accept(vtor)]; [accept] calls the
    visitor's overload for the node's own shape, passing the node. *)
Definition visit {R : Type} (tree : parse_tree) (vtor : node → R) : R :=
  vtor (root tree).

(** The height of a tree as the specification words it: a leaf has
    height 1, an internal node one plus the maximum height of its
    children.  No machine arithmetic here. *)
Fixpoint spec_height (n : node) : nat :=
  match n with
  | internal_node children => S (max_list (spec_height <$> children))
  | leaf_node _ => 1
  end.

End parser.

Import parser.

(** ** The depth featurizer (depth_featurizer.cpp) *)

Module depth_featurizer.

(** [size_t] arithmetic: unsigned, 64 bits wide on the platforms the
    toolkit is built for, wraps around. *)
Definition size_t_modulus : Z := 2 ^ 64.

Definition size_t_wrap (z : Z) : Z := z mod size_t_modulus.

(** [height_visitor]: the two [operator()] overloads, chosen by [accept]. *)
Fixpoint height_visitor (n : node) : Z :=
  match n with
  | internal_node children =>
      let max_height :=
        each_child children
          (λ max_height child, Z.max max_height (height_visitor child)) 0 in
      size_t_wrap (max_height + 1)
  | leaf_node _ =>
      (* leaf nodes are pre-terminals *)
      1
  end.

(** [std::to_string] of a [size_t], from the standard library: its
    decimal rendering. *)
Definition to_string (z : Z) : string := pretty (Z.to_N z).

Definition id : string := "depth".

(** The feature key [rep] built by [tree_tokenize]. *)
Definition rep (tree : parse_tree) : string :=
  "depth-" +:+ to_string (visit tree height_visitor).

Section tree_tokenize.
Context {T : Type} `{!feature_value T}.

(** [depth_featurizer<T>::tree_tokenize]. *)
Definition tree_tokenize (tree : parse_tree) (counts : gmap string T)
  : gmap string T :=
  increment (rep tree) counts.

End tree_tokenize.

End depth_featurizer.

Import depth_featurizer(size_t_modulus, size_t_wrap, height_visitor,
  to_string, rep, tree_tokenize).

(** ** The analyzer interface (analyzer.h) *)

Module analyzers.

(** *** The template argument

    The arithmetic types a caller can name as the template argument [T]
    of [analyzer<T>], and [std::string]. *)
Inductive cpp_type : Type :=
| t_bool | t_char
| t_int8 | t_uint8 | t_int16 | t_uint16
| t_int32 | t_uint32 | t_int64 | t_uint64
| t_float | t_double | t_long_double
| t_string.

#[export] Instance cpp_type_eq_dec : EqDecision cpp_type.
Proof. solve_decision. Defined.

(** [std::is_same<A, B>::value]. *)
Definition is_same (A B : cpp_type) : bool := bool_decide (A = B).

(** The condition of the [static_assert] that opens [class analyzer]:
    "analyzers can only produce unsigned integer or real valued feature
    values". *)
Definition analyzer_static_assert (T : cpp_type) : bool :=
  is_same T t_uint64 || is_same T t_double.

(** What an instantiation [analyzer<T>] fixes: its member types, and the
    value types of the maps and analyzers its member functions handle. *)
Record analyzer_instance : Type := {
  (* using feature_value_type = T *)
  feature_value_type : cpp_type;
  (* using feature_map = std::unordered_map<std::string, T> *)
  feature_map_key_type : cpp_type;
  feature_map_mapped_type : cpp_type;
  (* feature_map analyze(const corpus::document&) *)
  analyze_mapped_type : cpp_type;
  (* std::unique_ptr<analyzer> clone() const, [analyzer] being [analyzer<T>] *)
  clone_feature_value_type : cpp_type;
  (* void tokenize(const corpus::document&, feature_map&) *)
  tokenize_mapped_type : cpp_type;
}.

(** Instantiating the class template: refused by the compiler when the
    [static_assert] fails. *)
Definition instantiate (T : cpp_type) : option analyzer_instance :=
  if analyzer_static_assert T then
    Some {| feature_value_type := T;
            feature_map_key_type := t_string;
            feature_map_mapped_type := T;
            analyze_mapped_type := T;
            clone_feature_value_type := T;
            tokenize_mapped_type := T |}
  else None.

(** The explicit instantiations that close depth_featurizer.cpp:
    [template class depth_featurizer<uint64_t>] and
    [template class depth_featurizer<double>]. *)
Definition depth_featurizer_instantiations : list cpp_type :=
  [t_uint64; t_double].

(** *** Documents *)

(** Modelled from the spec: [corpus::document], of which analyzer.h has
    a forward declaration only: an identifier, the text and the path it
    came from. *)
Record document : Type := {
  doc_id : N;
  content : string;
  path : string;
}.

(** Modelled from the spec: [get_content], declared in analyzer.h: the
    contents of the document, as a string. *)
Definition get_content (doc : document) : string := content doc.

(** *** The interface

    [tokenize] is not const: it may change the analyzer as well as the
    map it is handed.  [clone] is const. *)
Class analyzer (T A : Type) := {
  tokenize : A → document → gmap string T → A * gmap string T;
  clone : A → A;
}.

(** Modelled from the spec: the body of [analyzer<T>::analyze], which
    analyzer.h only declares.  It hands [tokenize] a map of its own and
    returns that map. *)
Definition analyze {T A : Type} `{!analyzer T A} (a : A) (doc : document)
  : A * gmap string T :=
  tokenize a doc ∅.

(** *** Errors *)

(** Modelled from the spec: what an [analyzer_exception] reports.  The
    class carries a message; the specification tells configuration errors
    from failures to load a resource. *)
Inductive analyzer_exception : Type :=
| configuration_error (what : string)
| resource_load_error (resource : string).

(** A call that returns or throws. *)
Inductive result (A : Type) : Type :=
| ok (a : A)
| thrown (e : analyzer_exception).

Arguments ok {A} a.
Arguments thrown {A} e.

#[export] Instance result_ret : MRet result := λ A a, ok a.

#[export] Instance result_bind : MBind result := λ A B f r,
  match r with
  | ok a => f a
  | thrown e => thrown e
  end.

(** *** Configuration tables *)

(** Modelled from the spec: the values of a [cpptoml::table], a class of
    the TOML library that analyzer.h forward declares.  The fields of an
    analyzer's block are integers ([ngram]), strings ([method],
    [crf-prefix]) and lists of blocks ([filter]). *)
Inductive toml_value : Type :=
| toml_integer (z : Z)
| toml_string (s : string)
| toml_table_array (blocks : list (list (string * string))).

Abbreviation table := (gmap string toml_value).

(** Modelled from the spec: reading a required integer field, with the
    two ways it can fail. *)
Definition get_integer (config : table) (key : string) : result Z :=
  match config !! key with
  | Some (toml_integer z) => ok z
  | Some _ => thrown (configuration_error (key +:+ " has the wrong type"))
  | None => thrown (configuration_error (key +:+ " is missing"))
  end.

(** Modelled from the spec: reading a required string field. *)
Definition get_string (config : table) (key : string) : result string :=
  match config !! key with
  | Some (toml_string s) => ok s
  | Some _ => thrown (configuration_error (key +:+ " has the wrong type"))
  | None => thrown (configuration_error (key +:+ " is missing"))
  end.

End analyzers.

Import analyzers.

(** ** The n-gram analyzer over part-of-speech tags (ngram_pos_analyzer.h)

    The header declares the class, its three data members and its
    constructors; the bodies are not in the sources and are modelled from
    the specification. *)

Module ngram_pos.

(** *** Token streams *)

(** Modelled from the spec: [token_stream], of which analyzer.h has a
    forward declaration only.  A stream is a configured chain of filters
    and the tokens of the current document it has not handed out yet. *)
Record token_stream : Type := {
  (* the filter chain: the tokens it makes of a document's text *)
  filters : string → list string;
  (* transient state: the tokens still to be pulled *)
  pending : list string;
}.

(** Modelled from the spec: [token_stream::set_content], which starts
    the stream on a new text. *)
Definition set_content (s : token_stream) (text : string) : token_stream :=
  {| filters := filters s; pending := filters s text |}.

(** Modelled from the spec: [token_stream::next], the pull of one token;
    [None] when the stream is exhausted. *)
Definition next (s : token_stream) : option (string * token_stream) :=
  match pending s with
  | [] => None
  | t :: rest => Some (t, {| filters := filters s; pending := rest |})
  end.

(** Modelled from the spec: the copy of a stream for a clone: same
    chain, scratch state of its own. *)
Definition clone_stream (s : token_stream) : token_stream :=
  {| filters := filters s; pending := [] |}.

(** Modelled from the spec: pulling tokens while the stream has more;
    the loop ends after as many rounds as there are pending tokens. *)
Fixpoint pull (rounds : nat) (s : token_stream) (tokens : list string)
  : list string * token_stream :=
  match rounds with
  | O => (tokens, s)
  | S rounds' =>
      match next s with
      | None => (tokens, s)
      | Some (t, s') => pull rounds' s' (tokens ++ [t])
      end
  end.

(** Modelled from the spec: the whole token sequence of the stream. *)
Definition pull_all (s : token_stream) : list string * token_stream :=
  pull (length (pending s)) s [].

(** *** Sliding windows over tags *)

(** Modelled from the spec: the fixed separator between the tags of one
    feature key, as in the key NN_VB of the specification's example. *)
Definition separator : string := "_".

(** Modelled from the spec: the windows of [n] consecutive tags, left to
    right; a sequence shorter than [n] has none. *)
Fixpoint windows (n : nat) (tags : list string) : list (list string) :=
  match tags with
  | [] => []
  | _ :: rest =>
      if decide (n ≤ length tags)%nat
      then take n tags :: windows n rest
      else []
  end.

(** Modelled from the spec: the feature keys of one segment, one per
    window, the window's tags joined with the separator. *)
Definition ngram_keys (n : nat) (tags : list string) : list string :=
  String.concat separator <$> windows n tags.

(** How often a key is among the keys of a segment: the number of the
    windows that give this key. *)
Definition key_occurrences (key : string) (keys : list string) : nat :=
  length (filter (λ k, k = key) keys).

(** Modelled from the spec: the features of one segment's tags, added to
    the map, one increment per window. *)
Definition tokenize_segment {T : Type} `{!feature_value T}
    (n : nat) (tags : list string) (counts : gmap string T) : gmap string T :=
  increment_all (ngram_keys n tags) counts.

Section ngram_pos_analyzer.
Context {T : Type} `{!feature_value T}.

(** The collaborators the class only names: the trained model
    ([sequence::crf]), the generator of the model's features
    ([sequence::sequence_analyzer]), the tagging of one segment's tokens
    with them, loading both from the files under a prefix, the filter
    chain builder ([load_filters] of analyzer.h) and the test for a
    sentence boundary token. *)
Variable crf : Type.
Variable sequence_analyzer : Type.
Variable tag : crf → sequence_analyzer → list string → list string.
Variable load_crf : string → option (crf * sequence_analyzer).
Variable load_filters : table → table → result token_stream.
Variable sentence_boundary : string → bool.

(** The data members: [n] is held by the [ngram_analyzer] base, the
    other three are declared in the header. *)
Record ngram_pos_analyzer : Type := {
  (* uint16_t *)
  n_value : Z;
  (* std::unique_ptr<token_stream>: owned by this analyzer alone *)
  stream_ : token_stream;
  (* std::shared_ptr<sequence::crf>: shared with the clones *)
  crf_ : crf;
  (* const sequence::sequence_analyzer *)
  seq_analyzer_ : sequence_analyzer;
}.

(** The constructor's parameter [n] is a [uint16_t]. *)
Definition uint16_wrap (z : Z) : Z := z mod 2 ^ 16.

(** Modelled from the spec: the constructor declared at lines 62-63 of the
    header.  It loads the model named by [crf_prefix] and fails when there
    is none. *)
Definition make_ngram_pos_analyzer (n : Z) (stream : token_stream)
    (crf_prefix : string) : result ngram_pos_analyzer :=
  match load_crf crf_prefix with
  | Some (model, generator) =>
      ok {| n_value := uint16_wrap n; stream_ := stream;
            crf_ := model; seq_analyzer_ := generator |}
  | None => thrown (resource_load_error crf_prefix)
  end.

(** Modelled from the spec: the copy constructor declared at line 69, which
    [clone] calls.  The stream is copied into one the clone owns, the
    model is shared. *)
Definition copy (other : ngram_pos_analyzer) : ngram_pos_analyzer :=
  {| n_value := n_value other;
     stream_ := clone_stream (stream_ other);
     crf_ := crf_ other;
     seq_analyzer_ := seq_analyzer_ other |}.

(** Modelled from the spec: the token sequence split into segments at the
    sentence boundary tokens; [seq] is the segment being read. *)
Fixpoint segments (tokens : list string) (seq : list string)
  : list (list string) :=
  match tokens with
  | [] => [seq]
  | t :: rest =>
      if sentence_boundary t then seq :: segments rest []
      else segments rest (seq ++ [t])
  end.

(** Modelled from the spec: the body of [ngram_pos_analyzer::tokenize]
    declared at lines 79-80: the document goes through the filter chain,
    the tokens are split into segments, every segment is tagged and a
    window of width [n] slides over its tags. *)
Definition ngram_pos_tokenize (a : ngram_pos_analyzer) (doc : document)
    (counts : gmap string T) : ngram_pos_analyzer * gmap string T :=
  let '(tokens, stream) := pull_all (set_content (stream_ a) (get_content doc)) in
  let a' := {| n_value := n_value a; stream_ := stream;
               crf_ := crf_ a; seq_analyzer_ := seq_analyzer_ a |} in
  (a',
   foldl (λ acc segment,
            tokenize_segment (Z.to_nat (n_value a))
              (tag (crf_ a) (seq_analyzer_ a) segment) acc)
         counts (segments tokens [])).

#[export] Instance ngram_pos_analyzer_analyzer : analyzer T ngram_pos_analyzer := {|
  tokenize := ngram_pos_tokenize;
  clone := copy;
|}.

(** Modelled from the spec: [analyzer_traits<ngram_pos_analyzer<T>>::create],
    declared at lines 96-101.  The order [ngram] must be a positive
    integer, and one the constructor's [uint16_t] parameter holds, so that
    the analyzer never gets another order than the configured one; the
    model prefix is required. *)
Definition create (global config : table) : result ngram_pos_analyzer :=
  n ← get_integer config "ngram";
  if decide (0 < n) then
    if decide (n < 2 ^ 16) then
      crf_prefix ← get_string config "crf-prefix";
      stream ← load_filters global config;
      make_ngram_pos_analyzer n stream crf_prefix
    else
      thrown (configuration_error "ngram is too large")
  else
    thrown (configuration_error "ngram must be a positive integer").

(** Two analyzers of one configuration: the same order, filter chain,
    model and generator; what their streams have pending does not count. *)
Definition same_configuration (a b : ngram_pos_analyzer) : Prop :=
  n_value a = n_value b
  ∧ filters (stream_ a) = filters (stream_ b)
  ∧ crf_ a = crf_ b
  ∧ seq_analyzer_ a = seq_analyzer_ b.

(** The analyzers an analyzer can turn into: by cloning, and by being
    used on a document. *)
Inductive derived (proto : ngram_pos_analyzer) : ngram_pos_analyzer → Prop :=
| derived_proto : derived proto proto
| derived_clone a : derived proto a → derived proto (clone a)
| derived_used a doc :
    derived proto a → derived proto (analyze (T:=T) a doc).1.

End ngram_pos_analyzer.

Arguments n_value {crf sequence_analyzer} _.
Arguments stream_ {crf sequence_analyzer} _.
Arguments crf_ {crf sequence_analyzer} _.
Arguments seq_analyzer_ {crf sequence_analyzer} _.
Arguments copy {crf sequence_analyzer} other.
Arguments same_configuration {crf sequence_analyzer} a b.
Arguments make_ngram_pos_analyzer {crf sequence_analyzer} load_crf n stream crf_prefix.
Arguments create {crf sequence_analyzer} load_crf load_filters global config.
Arguments ngram_pos_tokenize {T _ crf sequence_analyzer} tag sentence_boundary a doc counts.
Arguments ngram_pos_analyzer_analyzer {T _ crf sequence_analyzer} tag sentence_boundary.
Arguments derived {T _ crf sequence_analyzer} tag sentence_boundary proto _.

End ngram_pos.

Import ngram_pos.

(** ** The factory (analyzer_factory.h)

    [load] of analyzer.h makes the analyzer a configuration names by
    handing the identifier under [method] to the factory. *)

Module factory.

Section factory.
(** The type of the prototypes the factory makes. *)
Variable P : Type.

(** Modelled from the spec: a registered constructor, from the global
    configuration and the analyzer's own block to a prototype, or an
    exception. *)
Definition factory_method : Type := table → table → result P.

(** Modelled from the spec: the factory's only state, the registered
    constructors by identifier. *)
Definition registry : Type := gmap string factory_method.

(** Modelled from the spec: registration, once per identifier. *)
Definition add (identifier : string) (fn : factory_method) (methods_ : registry)
  : result registry :=
  match methods_ !! identifier with
  | Some _ =>
      thrown (configuration_error ("already registered: " +:+ identifier))
  | None => ok (<[identifier := fn]> methods_)
  end.

(** Modelled from the spec: construction by identifier.  The registry
    as the call leaves it is returned with the outcome. *)
Definition create (methods_ : registry) (identifier : string)
    (global config : table) : registry * result P :=
  match methods_ !! identifier with
  | None =>
      (methods_,
       thrown (configuration_error ("unrecognized identifier: " +:+ identifier)))
  | Some fn => (methods_, fn global config)
  end.

End factory.

End factory.

(** ** Vocabulary of the further properties

    Measures and relations on trees and maps that the properties of the
    depth featurizer are stated with; none of them is a function of the
    toolkit. *)

(** The number of nodes of a tree: what it takes to hold it in memory. *)
Fixpoint node_count (n : node) : nat :=
  match n with
  | internal_node children => S (sum_list (node_count <$> children))
  | leaf_node _ => 1
  end.

Unset Elimination Schemes.

(** Two trees of the same shape up to the order of the children of each
    internal node and up to the labels of the leaves. *)
Inductive same_shape : node → node → Prop :=
| same_shape_leaf label label' :
    same_shape (leaf_node label) (leaf_node label')
| same_shape_internal children children' children'' :
    Forall2 same_shape children children' →
    children' ≡ₚ children'' →
    same_shape (internal_node children) (internal_node children'').

Set Elimination Schemes.

(** [tree_tokenize] called on one tree after the other with the same
    map, as a caller with several trees calls it. *)
Definition tree_tokenize_all {T : Type} `{!feature_value T}
    (trees : list parse_tree) (counts : gmap string T) : gmap string T :=
  foldl (λ acc tree, tree_tokenize tree acc) counts trees.

(** How many of the trees have the feature key [key]. *)
Definition trees_with_key (key : string) (trees : list parse_tree) : nat :=
  length (filter (λ tree, rep tree = key) trees).

(** * Properties *)

(** ** Feature maps *)

Section increment_facts.
Context {T : Type} `{!feature_value T}.
Implicit Types counts : gmap string T.

Lemma lookup_increment key counts key' :
  increment key counts !! key' =
    if decide (key' = key)
    then Some (fv_add_one (default fv_init (counts !! key)))
    else counts !! key'.
Proof.
  unfold increment. case_decide as Hk.
  - subst key'. apply lookup_insert_eq.
  - by apply lookup_insert_ne.
Qed.

Lemma lookup_increment_ne key counts key' :
  key' ≠ key → increment key counts !! key' = counts !! key'.
Proof. intros Hne. rewrite lookup_increment. by case_decide. Qed.

Lemma dom_increment key counts :
  dom (increment key counts) = {[key]} ∪ dom counts.
Proof. unfold increment. apply dom_insert_L. Qed.

Lemma increment_all_cons key keys counts :
  increment_all (key :: keys) counts = increment_all keys (increment key counts).
Proof. reflexivity. Qed.

Lemma lookup_increment_all_ne keys counts key' :
  key' ∉ keys → increment_all keys counts !! key' = counts !! key'.
Proof.
  revert counts. induction keys as [|key keys IH]; intros counts Hnotin; [done|].
  apply not_elem_of_cons in Hnotin as [Hne Hnotin].
  rewrite increment_all_cons, IH by done.
  by apply lookup_increment_ne.
Qed.

Lemma dom_increment_all keys counts :
  dom (increment_all keys counts) = list_to_set keys ∪ dom counts.
Proof.
  revert counts. induction keys as [|key keys IH]; intros counts.
  - simpl. by rewrite (left_id_L ∅ (∪)).
  - rewrite increment_all_cons, IH, dom_increment, list_to_set_cons.
    by rewrite !(assoc_L (∪)), (comm_L (∪) _ {[key]}).
Qed.

End increment_facts.

(** The two ends of [+= 1]: the largest [uint64_t] wraps around to 0,
    and from 2^53 on a [double] is left as it was. *)
Example uint64_add_one_wraps : fv_add_one (T:=Z) (uint64_modulus - 1) = 0.
Proof. reflexivity. Qed.

Example double_add_one_rounds :
  fv_add_one (T:=float) 9007199254740992%float = 9007199254740992%float.
Proof. reflexivity. Qed.

(** ** The height visitor *)

(** What the closure handed to [each_child] leaves in [max_height] when
    every child's height is the one the specification gives it. *)
Lemma each_child_max children (k : nat) :
  Forall (λ c, height_visitor c = Z.of_nat (spec_height c)) children →
  each_child children
    (λ max_height child, Z.max max_height (height_visitor child)) (Z.of_nat k)
  = Z.of_nat (k `max` max_list (spec_height <$> children)).
Proof.
  unfold each_child. intros Hall. revert k.
  induction Hall as [|c children Hc _ IH]; intros k; simpl.
  - by rewrite Nat.max_0_r.
  - rewrite Hc, <- Nat2Z.inj_max, IH. f_equal. symmetry. apply Nat.max_assoc.
Qed.

Lemma spec_height_pos n : (1 ≤ spec_height n)%nat.
Proof. destruct n; simpl; lia. Qed.

Lemma spec_height_child c children :
  c ∈ children → (spec_height c < spec_height (internal_node children))%nat.
Proof.
  intros Hin. simpl.
  assert (spec_height c ≤ max_list (spec_height <$> children))%nat; [|lia].
  apply max_list_elem_of_le, list_elem_of_fmap. eauto.
Qed.

(** The visitor computes the height of the specification as long as that
    height is a [size_t] value. *)
Lemma height_visitor_spec_height n :
  Z.of_nat (spec_height n) < size_t_modulus →
  height_visitor n = Z.of_nat (spec_height n).
Proof.
  induction n as [children IH|label] using node_ind; intros Hfit; [|done].
  cbn [height_visitor].
  assert (Forall (λ c, height_visitor c = Z.of_nat (spec_height c)) children)
    as Hall.
  { apply Forall_forall. intros c Hin.
    rewrite Forall_forall in IH. apply IH; [done|].
    pose proof (spec_height_child c children Hin). lia. }
  change 0 with (Z.of_nat 0). rewrite (each_child_max children 0 Hall).
  rewrite Nat.max_0_l. cbn [spec_height] in *.
  unfold size_t_wrap. rewrite Z.mod_small; lia.
Qed.

(** ** The depth featurizer *)

Lemma to_string_of_nat (h : nat) : to_string (Z.of_nat h) = pretty h.
Proof. unfold to_string. by rewrite <- nat_N_Z, N2Z.id. Qed.

Lemma rep_spec_height tree :
  Z.of_nat (spec_height (root tree)) < size_t_modulus →
  rep tree = "depth-" +:+ pretty (spec_height (root tree)).
Proof.
  intros Hfit. unfold rep, visit.
  by rewrite height_visitor_spec_height, to_string_of_nat.
Qed.

(** Different heights give different feature keys. *)
Lemma depth_key_inj (h1 h2 : nat) :
  "depth-" +:+ pretty h1 = "depth-" +:+ pretty h2 → h1 = h2.
Proof. intros Heq. simplify_eq/=. by apply (inj pretty). Qed.

(** C1: for every parse tree whose height [h] is a [size_t] value (as the
    height of any tree held in memory is), the height visitor returns [h],
    where a leaf has height 1 and an internal node one plus the maximum
    height of its children; [tree_tokenize] adds one to the count of the
    single key "depth-" followed by [h] in decimal and changes nothing
    else.  On an empty map, a single leaf gives "depth-1" the count 1, a
    root with two leaf children gives "depth-2" the count 1, and a chain
    root, internal node, leaf gives "depth-3" the count 1, for counts of
    either value type. *)
Theorem depth_featurizer_emits_tree_height :
  (∀ tree : parse_tree,
     Z.of_nat (spec_height (root tree)) < size_t_modulus →
     visit tree height_visitor = Z.of_nat (spec_height (root tree))
     ∧ ∀ (T : Type) (V : feature_value T) (counts : gmap string T),
         let key := "depth-" +:+ pretty (spec_height (root tree)) in
         tree_tokenize tree counts =
           <[key := fv_add_one (default fv_init (counts !! key))]> counts)
  ∧ (∀ label,
       tree_tokenize {| root := leaf_node label |} (∅ : gmap string Z)
         = {[ "depth-1" := 1 ]}
       ∧ tree_tokenize {| root := leaf_node label |} (∅ : gmap string float)
         = {[ "depth-1" := 1%float ]})
  ∧ (∀ label1 label2,
       let tree :=
         {| root := internal_node [leaf_node label1; leaf_node label2] |} in
       tree_tokenize tree (∅ : gmap string Z) = {[ "depth-2" := 1 ]}
       ∧ tree_tokenize tree (∅ : gmap string float) = {[ "depth-2" := 1%float ]})
  ∧ (∀ label,
       let tree :=
         {| root := internal_node [internal_node [leaf_node label]] |} in
       tree_tokenize tree (∅ : gmap string Z) = {[ "depth-3" := 1 ]}
       ∧ tree_tokenize tree (∅ : gmap string float) = {[ "depth-3" := 1%float ]}).
Proof.
  split; [|repeat split; reflexivity].
  intros tree Hfit. split.
  - by apply height_visitor_spec_height.
  - intros T V counts key. unfold tree_tokenize, increment.
    by rewrite rep_spec_height.
Qed.

(** The theorem at a tree of height 3 and a map that already counts it. *)
Lemma depth_featurizer_emits_tree_height_witness :
  let tree :=
    {| root := internal_node
                 [leaf_node "DT"; internal_node [leaf_node "NN"; leaf_node "VB"]] |} in
  tree_tokenize tree ({[ "depth-3" := 4; "depth-2" := 1 ]} : gmap string Z)
    = {[ "depth-3" := 5; "depth-2" := 1 ]}.
Proof.
  intros tree.
  destruct (proj1 depth_featurizer_emits_tree_height tree) as [_ Hmap].
  - reflexivity.
  - rewrite (Hmap Z _). vm_compute. reflexivity.
Defined.

(** C10: on an internal node without children the height visitor returns
    1, the running maximum 0 plus one; the featurizer takes such a tree
    like any other, there is no error it could return, and it does to
    every map what it does for a single leaf: it adds one to the count of
    "depth-1", which on an empty map leaves just that key with count 1. *)
Theorem childless_internal_node_has_height_one :
  height_visitor (internal_node []) = 1
  ∧ rep {| root := internal_node [] |} = "depth-1"
  ∧ (∀ (T : Type) (V : feature_value T) (counts : gmap string T) label,
       tree_tokenize {| root := internal_node [] |} counts
         = tree_tokenize {| root := leaf_node label |} counts)
  ∧ tree_tokenize {| root := internal_node [] |} (∅ : gmap string Z)
      = {[ "depth-1" := 1 ]}
  ∧ tree_tokenize {| root := internal_node [] |} (∅ : gmap string float)
      = {[ "depth-1" := 1%float ]}.
Proof. repeat split; reflexivity. Qed.

(** C7: [tree_tokenize] works on the map it is handed.  Every entry of
    that map is still there afterwards: under the tree's own key with one
    added to its count, under any other key with the value it had.  The
    only entry that can be new is the one under the tree's key.  So the
    keys of the map only grow, and a second stage writing into the same
    map leaves the entries of the first in place. *)
Theorem tree_tokenize_accumulates (T : Type) (V : feature_value T)
    (tree : parse_tree) (counts : gmap string T) :
  (∀ key,
     tree_tokenize tree counts !! key =
       match counts !! key with
       | Some v => Some (if decide (key = rep tree) then fv_add_one v else v)
       | None => if decide (key = rep tree) then Some (fv_add_one fv_init) else None
       end)
  ∧ dom counts ⊆ dom (tree_tokenize tree counts)
  ∧ (∀ tree' key,
       key ≠ rep tree → key ≠ rep tree' →
       tree_tokenize tree' (tree_tokenize tree counts) !! key = counts !! key).
Proof.
  unfold tree_tokenize. repeat split.
  - intros key. rewrite lookup_increment.
    case_decide as Hk; [subst key|]; by destruct (counts !! _).
  - rewrite dom_increment. apply union_subseteq_r.
  - intros tree' key Hne Hne'. by rewrite !lookup_increment_ne.
Qed.

(** The n-gram stage writes into the map it is handed in the same way:
    the entries under keys it does not emit keep their values, and no key
    goes away. *)
Lemma tokenize_segment_accumulates (T : Type) (V : feature_value T)
    (n : nat) (tags : list string) (counts : gmap string T) :
  (∀ key, key ∉ ngram_keys n tags →
     tokenize_segment n tags counts !! key = counts !! key)
  ∧ dom counts ⊆ dom (tokenize_segment n tags counts).
Proof.
  unfold tokenize_segment. split.
  - intros key Hkey. by apply lookup_increment_all_ne.
  - rewrite dom_increment_all. apply union_subseteq_r.
Qed.

(** ** The template argument *)

(** C8: [analyzer<T>] can be instantiated with [uint64_t] and with
    [double] and with no other type; an instantiation has one feature
    value type [T], and the feature maps it names, returns from [analyze]
    and takes in [tokenize], and the analyzers [clone] returns, all carry
    that [T].  The instantiations of the depth featurizer are these two. *)
Theorem analyzer_feature_value_types (T : cpp_type) :
  (is_Some (instantiate T) ↔ T = t_uint64 ∨ T = t_double)
  ∧ (∀ inst,
       instantiate T = Some inst →
       feature_value_type inst = T
       ∧ feature_map_mapped_type inst = T
       ∧ analyze_mapped_type inst = T
       ∧ tokenize_mapped_type inst = T
       ∧ clone_feature_value_type inst = T
       ∧ instantiate (clone_feature_value_type inst) = Some inst)
  ∧ Forall (λ T', is_Some (instantiate T')) depth_featurizer_instantiations
  ∧ (is_Some (instantiate T) → T ∈ depth_featurizer_instantiations).
Proof.
  split; [|split; [|split]].
  - split.
    + intros [inst Hinst]. destruct T; cbv in Hinst; simplify_eq; auto.
    + intros [-> | ->]; by eexists.
  - intros inst Hinst. destruct T; cbv in Hinst; simplify_eq; repeat split.
  - repeat constructor; by eexists.
  - intros [inst Hinst]. unfold depth_featurizer_instantiations.
    destruct T; cbv in Hinst; simplify_eq; set_solver.
Qed.

(** ** Counting occurrences in a map of [uint64_t] counts *)

Section total_count.
Implicit Types counts : gmap string Z.

Lemma total_count_empty : total_count ∅ = 0.
Proof. apply map_fold_empty. Qed.

Lemma total_count_insert_fresh key v counts :
  counts !! key = None →
  total_count (<[key := v]> counts) = v + total_count counts.
Proof.
  intros Hfresh. unfold total_count.
  rewrite map_fold_insert_L; [done| |done]. intros; lia.
Qed.

Lemma total_count_delete key v counts :
  counts !! key = Some v →
  total_count counts = v + total_count (delete key counts).
Proof.
  intros Hkey. unfold total_count.
  erewrite map_fold_delete_L; [done| |done]. intros; lia.
Qed.

Lemma total_count_insert key v counts :
  total_count (<[key := v]> counts) = v + total_count (delete key counts).
Proof.
  rewrite <- insert_delete_eq.
  apply total_count_insert_fresh, lookup_delete_eq.
Qed.

Lemma total_count_nonneg counts : uint64_counts counts → 0 ≤ total_count counts.
Proof.
  induction counts as [|key v counts Hfresh _ IH] using map_first_key_ind.
  - by rewrite total_count_empty.
  - intros [Hv Hrest]%map_Forall_insert; [|done].
    rewrite total_count_insert_fresh by done. specialize (IH Hrest). lia.
Qed.

Lemma count_le_total_count key v counts :
  uint64_counts counts → counts !! key = Some v → 0 ≤ v ≤ total_count counts.
Proof.
  intros Hvalid Hkey.
  pose proof (map_Forall_lookup_1 _ _ _ _ Hvalid Hkey) as Hv. cbn beta in Hv.
  rewrite (total_count_delete key v) by done.
  pose proof (total_count_nonneg (delete key counts)
                (map_Forall_delete _ _ _ Hvalid)).
  lia.
Qed.

(** One [counts[key] += 1] records one more occurrence, as long as the
    counter cannot wrap around. *)
Lemma total_count_increment key counts :
  uint64_counts counts →
  total_count counts + 1 < uint64_modulus →
  total_count (increment key counts) = total_count counts + 1
  ∧ uint64_counts (increment key counts).
Proof.
  intros Hvalid Hroom. unfold increment.
  pose proof (total_count_nonneg counts Hvalid) as Hnonneg.
  destruct (counts !! key) as [v|] eqn:Hkey; simpl; unfold uint64_wrap.
  - destruct (count_le_total_count key v counts Hvalid Hkey) as [Hv0 Hv].
    rewrite Z.mod_small by lia. split.
    + rewrite total_count_insert, (total_count_delete key v counts Hkey). lia.
    + apply map_Forall_insert_2; [lia|done].
  - rewrite Z.mod_small by lia. split.
    + rewrite total_count_insert_fresh by done. lia.
    + apply map_Forall_insert_2; [lia|done].
Qed.

(** The count under a key after one [counts[key] += 1], while no counter
    can wrap around. *)
Lemma default_lookup_increment key key' (counts : gmap string Z) :
  uint64_counts counts →
  total_count counts + 1 < uint64_modulus →
  default 0 (increment key counts !! key')
  = default 0 (counts !! key') + (if decide (key = key') then 1 else 0).
Proof.
  intros Hvalid Hroom. rewrite lookup_increment.
  pose proof (total_count_nonneg counts Hvalid) as Hnonneg.
  destruct (decide (key' = key)) as [->|Hne].
  - rewrite decide_True by done. simpl. unfold uint64_wrap.
    destruct (counts !! key) as [v|] eqn:Hkey; simpl.
    + destruct (count_le_total_count key v counts Hvalid Hkey).
      rewrite Z.mod_small; lia.
    + rewrite Z.mod_small; lia.
  - rewrite decide_False by done. lia.
Qed.

Lemma total_count_increment_all keys counts :
  uint64_counts counts →
  total_count counts + Z.of_nat (length keys) < uint64_modulus →
  total_count (increment_all keys counts)
    = total_count counts + Z.of_nat (length keys)
  ∧ uint64_counts (increment_all keys counts).
Proof.
  revert counts. induction keys as [|key keys IH]; intros counts Hvalid Hroom.
  - simpl. split; [lia|done].
  - rewrite increment_all_cons. cbn [length] in *.
    destruct (total_count_increment key counts Hvalid) as [Hone Hvalid'];
      [lia|].
    destruct (IH (increment key counts) Hvalid') as [Hall Hvalid'']; [lia|].
    split; [lia|done].
Qed.

End total_count.

(** ** Sliding windows *)

Section windows.
Implicit Types tags : list string.

Lemma length_windows n tags :
  (0 < n)%nat → length (windows n tags) = (length tags + 1 - n)%nat.
Proof.
  intros Hn. induction tags as [|t tags IH]; simpl.
  - lia.
  - case_decide; simpl; [rewrite IH|]; lia.
Qed.

Lemma windows_too_short n tags :
  (0 < n)%nat → (length tags < n)%nat → windows n tags = [].
Proof.
  intros Hn Hshort. apply length_zero_iff_nil. rewrite length_windows; lia.
Qed.

(** The window at position [i] is the [n] tags from position [i] on. *)
Lemma lookup_windows n tags i :
  (i + n ≤ length tags)%nat →
  (0 < n)%nat →
  windows n tags !! i = Some (take n (drop i tags)).
Proof.
  intros Hin Hn. revert i Hin.
  induction tags as [|t tags IH]; intros i Hin; simpl in *; [lia|].
  rewrite decide_True by lia. destruct i as [|i]; [done|].
  simpl. apply IH. lia.
Qed.

Lemma length_ngram_keys n tags :
  length (ngram_keys n tags) = length (windows n tags).
Proof. unfold ngram_keys. apply length_fmap. Qed.

End windows.

(** The example of the specification: the tags NN, VB, NN and [n = 2]. *)
Example ngram_keys_example :
  tokenize_segment 2 ["NN"; "VB"; "NN"] (∅ : gmap string Z)
    = {[ "NN_VB" := 1; "VB_NN" := 1 ]}.
Proof. vm_compute. reflexivity. Qed.

(** A window that occurs twice is counted twice. *)
Example ngram_keys_duplicates :
  tokenize_segment 1 ["NN"; "VB"; "NN"] (∅ : gmap string Z)
    = {[ "NN" := 2; "VB" := 1 ]}.
Proof. vm_compute. reflexivity. Qed.

(** ** The n-gram analyzer over part-of-speech tags *)

Section ngram_pos_facts.
Context {T : Type} `{!feature_value T}.
Context {crf sequence_analyzer : Type}.
Variable tag : crf → sequence_analyzer → list string → list string.
Variable sentence_boundary : string → bool.

Local Abbreviation pos_analyzer := (ngram_pos_analyzer crf sequence_analyzer).
Local Abbreviation pos_tokenize :=
  (ngram_pos_tokenize (T:=T) tag sentence_boundary).
Local Abbreviation pos_analyze :=
  (analyze (T:=T)
     (analyzer0:=ngram_pos_analyzer_analyzer tag sentence_boundary)).
Local Abbreviation pos_clone :=
  (@clone T pos_analyzer (ngram_pos_analyzer_analyzer tag sentence_boundary)).

Implicit Types a b proto : pos_analyzer.

(** The loop pulls every pending token, in order, and leaves none. *)
Lemma pull_pending rounds (s : token_stream) tokens :
  rounds = length (pending s) →
  pull rounds s tokens
    = (tokens ++ pending s, {| filters := filters s; pending := [] |}).
Proof.
  revert s tokens. induction rounds as [|rounds IH]; intros [chain rest] tokens;
    simpl; intros Hrounds.
  - destruct rest; [|done]. by rewrite app_nil_r.
  - destruct rest as [|t rest]; [done|]. unfold next; simpl in *.
    rewrite IH by (simpl; lia). simpl. by rewrite <- app_assoc.
Qed.

Lemma pull_all_set_content (s : token_stream) text :
  pull_all (set_content s text)
    = (filters s text, {| filters := filters s; pending := [] |}).
Proof. unfold pull_all. by rewrite pull_pending. Qed.

(** What [tokenize] adds to the map, and the analyzer it leaves. *)
Lemma ngram_pos_tokenize_unfold a doc (counts : gmap string T) :
  pos_tokenize a doc counts =
    ({| n_value := n_value a;
        stream_ := {| filters := filters (stream_ a); pending := [] |};
        crf_ := crf_ a; seq_analyzer_ := seq_analyzer_ a |},
     foldl (λ acc segment,
              tokenize_segment (Z.to_nat (n_value a))
                (tag (crf_ a) (seq_analyzer_ a) segment) acc)
           counts
           (segments sentence_boundary
              (filters (stream_ a) (get_content doc)) [])).
Proof. unfold ngram_pos_tokenize. by rewrite pull_all_set_content. Qed.

Lemma same_configuration_refl a : same_configuration a a.
Proof. by repeat split. Qed.

Lemma same_configuration_trans a b c :
  same_configuration a b → same_configuration b c → same_configuration a c.
Proof. intros (?&?&?&?) (?&?&?&?). repeat split; congruence. Qed.

Lemma same_configuration_clone a : same_configuration a (pos_clone a).
Proof. by repeat split. Qed.

Lemma same_configuration_analyze a doc :
  same_configuration a (pos_analyze a doc).1.
Proof.
  unfold analyze; simpl. rewrite ngram_pos_tokenize_unfold. by repeat split.
Qed.

(** Cloning and use keep the configuration of the prototype. *)
Lemma derived_same_configuration proto a :
  derived tag sentence_boundary proto a → same_configuration proto a.
Proof.
  induction 1 as [|a _ IH|a doc _ IH].
  - apply same_configuration_refl.
  - eapply same_configuration_trans, same_configuration_clone. done.
  - eapply same_configuration_trans, same_configuration_analyze. done.
Qed.

(** The feature map is a function of the configuration and the text. *)
Lemma analyze_same_configuration a b doc1 doc2 :
  same_configuration a b →
  get_content doc1 = get_content doc2 →
  (pos_analyze a doc1).2 = (pos_analyze b doc2).2.
Proof.
  intros (Hn & Hchain & Hcrf & Hgen) Htext. unfold analyze; simpl.
  rewrite !ngram_pos_tokenize_unfold. simpl.
  by rewrite Hn, Hchain, Hcrf, Hgen, Htext.
Qed.

End ngram_pos_facts.

Section determinism.
Context (T : Type) (V : feature_value T).
Context (crf sequence_analyzer : Type).
Context (tag : crf → sequence_analyzer → list string → list string).
Context (sentence_boundary : string → bool).

Local Abbreviation pos_analyze :=
  (analyze (T:=T)
     (analyzer0:=ngram_pos_analyzer_analyzer tag sentence_boundary)).

(** C3: two analyzers that come from one prototype, by cloning it and by
    whatever use was made of the clones before, give the same feature map
    for a document; the map depends on the text of the document and on the
    configuration of the prototype, not on what an analyzer was used for
    before nor on which clone does the work. *)
Theorem analyze_is_deterministic
    (proto a1 a2 : ngram_pos_analyzer crf sequence_analyzer)
    (doc1 doc2 : document) :
  derived tag sentence_boundary proto a1 →
  derived tag sentence_boundary proto a2 →
  get_content doc1 = get_content doc2 →
  (pos_analyze a1 doc1).2 = (pos_analyze a2 doc2).2.
Proof.
  intros Ha1%derived_same_configuration Ha2%derived_same_configuration Htext.
  apply analyze_same_configuration; [|done].
  destruct Ha1 as (?&?&?&?), Ha2 as (?&?&?&?). repeat split; congruence.
Qed.

End determinism.

(** The theorem at a fresh clone and at a clone that has analyzed another
    document before, of a prototype whose stream has tokens left over. *)
Lemma analyze_is_deterministic_witness :
  let tag := λ (_ _ : unit) (tokens : list string), (λ _, "NN") <$> tokens in
  let boundary := String.eqb "</s>" in
  let analyzer_ := ngram_pos_analyzer_analyzer (T:=Z) tag boundary in
  let proto :=
    {| n_value := 2;
       stream_ := {| filters := λ text, [text; "runs"; "</s>"; "it"];
                     pending := ["left"; "over"] |};
       crf_ := (); seq_analyzer_ := () |} in
  let doc := {| doc_id := 1; content := "she"; path := "a.txt" |} in
  let other := {| doc_id := 2; content := "he"; path := "b.txt" |} in
  (analyze (clone proto) doc).2
    = (analyze (analyze (clone proto) other).1 doc).2.
Proof.
  intros tag boundary analyzer_ proto doc other.
  apply (analyze_is_deterministic Z _ unit unit tag boundary proto).
  - apply derived_clone, derived_proto.
  - apply derived_used, derived_clone, derived_proto.
  - reflexivity.
Defined.

(** ** Construction *)

(** A positive order that a [uint16_t] holds and a model that loads give
    an analyzer of that order. *)
Lemma create_positive_ngram {crf sequence_analyzer : Type}
    (load_crf : string → option (crf * sequence_analyzer))
    (load_filters : table → table → result token_stream)
    (global config : table) n crf_prefix stream model generator :
  config !! "ngram" = Some (toml_integer n) →
  0 < n < 2 ^ 16 →
  config !! "crf-prefix" = Some (toml_string crf_prefix) →
  load_filters global config = ok stream →
  load_crf crf_prefix = Some (model, generator) →
  ngram_pos.create load_crf load_filters global config
    = ok {| n_value := n; stream_ := stream;
            crf_ := model; seq_analyzer_ := generator |}.
Proof.
  intros Hn Hpos Hprefix Hfilters Hload.
  unfold ngram_pos.create, get_integer, get_string, make_ngram_pos_analyzer.
  rewrite Hn. simpl. rewrite !decide_True by lia.
  rewrite Hprefix. simpl. rewrite Hfilters. simpl. rewrite Hload.
  unfold uint16_wrap. by rewrite Z.mod_small by lia.
Qed.

(** Whatever [create] builds has the configured order, and that order is
    positive. *)
Lemma create_ok_order {crf sequence_analyzer : Type}
    (load_crf : string → option (crf * sequence_analyzer))
    (load_filters : table → table → result token_stream)
    (global config : table) a :
  ngram_pos.create load_crf load_filters global config = ok a →
  config !! "ngram" = Some (toml_integer (n_value a))
  ∧ 0 < n_value a < 2 ^ 16.
Proof.
  unfold ngram_pos.create, get_integer, get_string, make_ngram_pos_analyzer.
  destruct (config !! "ngram") as [[n| |]|]; simpl; try done.
  destruct (decide (0 < n)); [|done]. destruct (decide (n < 2 ^ 16)); [|done].
  destruct (config !! "crf-prefix") as [[|crf_prefix|]|]; simpl; try done.
  destruct (load_filters global config) as [stream|]; simpl; [|done].
  destruct (load_crf crf_prefix) as [[model generator]|]; [|done].
  intros [= <-]. simpl. unfold uint16_wrap. rewrite Z.mod_small by lia. done.
Qed.

(** ** What one segment adds to the map *)

Lemma key_occurrences_cons key k keys :
  key_occurrences key (k :: keys)
  = ((if decide (k = key) then 1 else 0) + key_occurrences key keys)%nat.
Proof. unfold key_occurrences. rewrite filter_cons. by case_decide. Qed.

(** The entry under a key after a run of increments: untouched when the
    key is not among them, and else the old value, or the initial one,
    with one added once for every time the key occurs. *)
Lemma lookup_increment_all {T : Type} `{!feature_value T}
    keys (counts : gmap string T) key :
  increment_all keys counts !! key =
    match key_occurrences key keys with
    | O => counts !! key
    | S k => Some (Nat.iter (S k) fv_add_one (default fv_init (counts !! key)))
    end.
Proof.
  revert counts. induction keys as [|k keys IH]; intros counts; [done|].
  rewrite increment_all_cons, IH, key_occurrences_cons, lookup_increment.
  destruct (decide (k = key)) as [->|Hne].
  - rewrite decide_True by done. cbn [default Nat.add].
    destruct (key_occurrences key keys) as [|occ]; [done|].
    unfold id. by rewrite (Nat.iter_succ_r (S occ)).
  - rewrite decide_False by done. done.
Qed.

(** The same in numbers, for [uint64_t] counts that cannot wrap around. *)
Lemma default_lookup_increment_all keys (counts : gmap string Z) key :
  uint64_counts counts →
  total_count counts + Z.of_nat (length keys) < uint64_modulus →
  default 0 (increment_all keys counts !! key)
  = default 0 (counts !! key) + Z.of_nat (key_occurrences key keys).
Proof.
  revert counts. induction keys as [|k keys IH]; intros counts Hvalid Hroom.
  - unfold key_occurrences. simpl. lia.
  - rewrite increment_all_cons. cbn [length] in *.
    destruct (total_count_increment k counts Hvalid) as [Hone Hvalid']; [lia|].
    rewrite IH, default_lookup_increment, key_occurrences_cons by (done || lia).
    case_decide; lia.
Qed.

(** C2: the n-gram analyzer slides a window of the configured width [n]
    over the tags of a segment, [L] of them.  Every analyzer that [create]
    builds has the configured order, and that order is positive.  For a
    positive [n]: when [n ≤ L] there are exactly [L - n + 1] windows, the
    window at position [i] being the [n] tags from [i] on, and its key
    these tags joined with the separator; when [n > L] there is no window
    and the map is left as it was.  The segment changes the map under the
    keys of its windows and nowhere else: the entry under a key has one
    added once for every window with that key, a repeated window counting
    every time.  In numbers, for [uint64_t] counts with room for the
    windows: the count under every key grows by the number of windows with
    that key, and the sum of all counts by [L - n + 1].  The tags NN, VB,
    NN with [n = 2] give NN_VB and VB_NN the count 1 each. *)
Theorem ngram_window_occurrences :
  (∀ (n : nat) (tags : list string),
     (0 < n)%nat →
     ((n ≤ length tags)%nat →
        length (ngram_keys n tags) = (length tags - n + 1)%nat
        ∧ (∀ i, (i + n ≤ length tags)%nat →
             ngram_keys n tags !! i
               = Some (String.concat separator (take n (drop i tags))))
        ∧ (∀ counts : gmap string Z,
             uint64_counts counts →
             total_count counts + Z.of_nat (length tags - n + 1) < uint64_modulus →
             total_count (tokenize_segment n tags counts)
               = total_count counts + Z.of_nat (length tags - n + 1)
             ∧ ∀ key,
                 default 0 (tokenize_segment n tags counts !! key)
                 = default 0 (counts !! key)
                   + Z.of_nat (key_occurrences key (ngram_keys n tags))))
     ∧ ((length tags < n)%nat →
          ngram_keys n tags = []
          ∧ ∀ (T : Type) (V : feature_value T) (counts : gmap string T),
              tokenize_segment n tags counts = counts)
     ∧ (∀ (T : Type) (V : feature_value T) (counts : gmap string T) key,
          tokenize_segment n tags counts !! key =
            match key_occurrences key (ngram_keys n tags) with
            | O => counts !! key
            | S k =>
                Some (Nat.iter (S k) fv_add_one
                        (default fv_init (counts !! key)))
            end))
  ∧ (∀ (crf sequence_analyzer : Type)
       (load_crf : string → option (crf * sequence_analyzer))
       (load_filters : table → table → result token_stream)
       (global config : table) a,
       ngram_pos.create load_crf load_filters global config = ok a →
       config !! "ngram" = Some (toml_integer (n_value a))
       ∧ (0 < Z.to_nat (n_value a))%nat)
  ∧ tokenize_segment 2 ["NN"; "VB"; "NN"] (∅ : gmap string Z)
    = {[ "NN_VB" := 1; "VB_NN" := 1 ]}.
Proof.
  split; [|split; [|by vm_compute]].
  - intros n tags Hn. split; [|split].
    + intros Hle.
      assert (length (ngram_keys n tags) = (length tags - n + 1)%nat) as Hlen.
      { rewrite length_ngram_keys, length_windows by done. lia. }
      split; [done|]. split.
      * intros i Hi. unfold ngram_keys.
        by rewrite list_lookup_fmap, lookup_windows.
      * intros counts Hvalid Hroom. unfold tokenize_segment.
        rewrite <- Hlen in *. split.
        -- by apply total_count_increment_all.
        -- intros key. by apply default_lookup_increment_all.
    + intros Hshort. unfold tokenize_segment, ngram_keys.
      rewrite windows_too_short by done. done.
    + intros T V counts key. unfold tokenize_segment.
      apply lookup_increment_all.
  - intros crf sequence_analyzer load_crf load_filters global config a Hok.
    destruct (create_ok_order _ _ _ _ _ Hok) as [Hngram Hrange].
    split; [done|]. lia.
Qed.

(** The theorem at the tags NN, VB, NN, VB and [n = 2], on a map that
    already has counts: NN_VB occurs twice and goes from 3 to 5, VB_NN
    occurs once and is new, DT_NN is not among the windows and stays. *)
Lemma ngram_window_occurrences_witness :
  let counts : gmap string Z := {[ "NN_VB" := 3; "DT_NN" := 1 ]} in
  let result := tokenize_segment 2 ["NN"; "VB"; "NN"; "VB"] counts in
  total_count result = total_count counts + 3
  ∧ default 0 (result !! "NN_VB") = 5
  ∧ default 0 (result !! "VB_NN") = 1
  ∧ default 0 (result !! "DT_NN") = 1.
Proof.
  intros counts result.
  destruct (proj1 (proj1 ngram_window_occurrences 2%nat ["NN"; "VB"; "NN"; "VB"]
                     ltac:(lia)) ltac:(simpl; lia))
    as (_ & _ & Hcounts).
  destruct (Hcounts counts) as [Htotal Hkeys].
  - apply map_Forall_insert_2; [unfold uint64_modulus; lia|].
    apply map_Forall_singleton. unfold uint64_modulus; lia.
  - vm_compute. reflexivity.
  - split; [exact Htotal|].
    split; [|split]; unfold result; rewrite Hkeys; reflexivity.
Defined.

(** C4: when the configuration gives an order [ngram] that is zero or
    negative, constructing the n-gram analyzer fails with a configuration
    error; no analyzer is built, of that order or of any other. *)
Theorem nonpositive_ngram_is_rejected (crf sequence_analyzer : Type)
    (load_crf : string → option (crf * sequence_analyzer))
    (load_filters : table → table → result token_stream)
    (global config : table) (n : Z) :
  config !! "ngram" = Some (toml_integer n) →
  n ≤ 0 →
  ngram_pos.create load_crf load_filters global config
    = thrown (configuration_error "ngram must be a positive integer")
  ∧ ∀ a, ngram_pos.create load_crf load_filters global config ≠ ok a.
Proof.
  intros Hn Hnonpos.
  assert (ngram_pos.create load_crf load_filters global config
          = thrown (configuration_error "ngram must be a positive integer"))
    as Hthrown.
  { unfold ngram_pos.create, get_integer. rewrite Hn. simpl.
    by rewrite decide_False by lia. }
  split; [done|]. intros a. by rewrite Hthrown.
Qed.

(** The theorem at [ngram = 0], everything else being in order. *)
Lemma nonpositive_ngram_is_rejected_witness :
  let config : table :=
    {[ "method" := toml_string "ngram-pos"; "ngram" := toml_integer 0;
       "crf-prefix" := toml_string "crf" ]} in
  ngram_pos.create (λ _, Some ((), ()))
    (λ _ _, ok {| filters := λ text, [text]; pending := [] |}) ∅ config
    = thrown (configuration_error "ngram must be a positive integer").
Proof.
  intros config.
  apply (nonpositive_ngram_is_rejected unit unit _ _ ∅ config 0);
    [reflexivity | lia].
Defined.

(** ** The factory *)

(** A registered identifier reaches its constructor. *)
Lemma create_registered (P : Type) (methods_ : factory.registry P)
    identifier fn global config :
  methods_ !! identifier = Some fn →
  factory.create P methods_ identifier global config
    = (methods_, fn global config).
Proof.
  intros Hfn.
  unfold factory.create, factory.registry, factory.factory_method in *.
  by rewrite Hfn.
Qed.

(** An identifier can be registered once. *)
Lemma add_twice (P : Type) (methods_ methods' : factory.registry P)
    identifier fn fn' :
  factory.add P identifier fn methods_ = ok methods' →
  factory.add P identifier fn' methods'
    = thrown (configuration_error ("already registered: " +:+ identifier)).
Proof.
  unfold factory.add, factory.registry, factory.factory_method in *.
  destruct (methods_ !! identifier) eqn:Hid; [done|].
  intros [= <-]. by rewrite lookup_insert_eq.
Qed.

(** C5: asking the factory for an identifier that is not registered fails
    with a configuration error; no prototype comes out, and the registry
    is after the call what it was before: nothing is registered under the
    identifier. *)
Theorem unregistered_identifier_is_rejected (P : Type)
    (methods_ : factory.registry P) (identifier : string)
    (global config : table) :
  methods_ !! identifier = None →
  factory.create P methods_ identifier global config
    = (methods_,
       thrown (configuration_error ("unrecognized identifier: " +:+ identifier)))
  ∧ (∀ proto, (factory.create P methods_ identifier global config).2 ≠ ok proto)
  ∧ (factory.create P methods_ identifier global config).1 !! identifier = None.
Proof.
  intros Hnone.
  assert (factory.create P methods_ identifier global config
    = (methods_,
       thrown (configuration_error ("unrecognized identifier: " +:+ identifier))))
    as Hcreate.
  { unfold factory.create, factory.registry, factory.factory_method in *.
    by rewrite Hnone. }
  split; [done|]. split.
  - intros proto. by rewrite Hcreate.
  - by rewrite Hcreate.
Qed.

(** The theorem at a registry that knows "depth" and a request for
    "ngram-word". *)
Lemma unregistered_identifier_is_rejected_witness :
  let methods_ : factory.registry nat := {[ "depth" := λ _ _, ok 1%nat ]} in
  let config : table :=
    {[ "method" := toml_string "ngram-word"; "ngram" := toml_integer 2 ]} in
  factory.create nat methods_ "ngram-word" ∅ config
    = (methods_,
       thrown (configuration_error "unrecognized identifier: ngram-word")).
Proof.
  intros methods_ config.
  apply (unregistered_identifier_is_rejected nat methods_ "ngram-word" ∅ config).
  reflexivity.
Defined.

(** * Further properties of the depth featurizer *)

(** ** Heights *)

(** The visitor's result is a [size_t] value. *)
Lemma height_visitor_range n : 0 ≤ height_visitor n < size_t_modulus.
Proof.
  destruct n as [children|label]; cbn [height_visitor].
  - apply Z.mod_pos_bound. by unfold size_t_modulus.
  - by unfold size_t_modulus.
Qed.

Lemma to_string_inj (a b : Z) :
  0 ≤ a → 0 ≤ b → to_string a = to_string b → a = b.
Proof.
  unfold to_string. intros Ha Hb Heq%(inj pretty). by apply Z2N.inj.
Qed.

Lemma max_list_le_sum_list (f g : node → nat) children :
  Forall (λ c, f c ≤ g c)%nat children →
  (max_list (f <$> children) ≤ sum_list (g <$> children))%nat.
Proof.
  induction 1 as [|c children Hc _ IH]; simpl; [lia|].
  unfold fmap in *. lia.
Qed.

Lemma spec_height_le_node_count n : (spec_height n ≤ node_count n)%nat.
Proof.
  induction n as [children IH|label] using node_ind; simpl; [|done].
  apply le_n_S. by apply max_list_le_sum_list.
Qed.

(** X1: a tree of fewer than 2^64 nodes, as every tree in memory is, gets
    the height of the specification from the visitor, and that height
    lies between 1 and the number of nodes. *)
Theorem height_visitor_node_count (n : node) :
  Z.of_nat (node_count n) < size_t_modulus →
  height_visitor n = Z.of_nat (spec_height n)
  ∧ 1 ≤ height_visitor n ≤ Z.of_nat (node_count n).
Proof.
  intros Hfit.
  pose proof (spec_height_le_node_count n) as Hle.
  pose proof (spec_height_pos n) as Hpos.
  rewrite height_visitor_spec_height by lia. lia.
Qed.

Lemma height_visitor_node_count_witness :
  let n := internal_node [leaf_node "DT"; internal_node [leaf_node "NN"]] in
  height_visitor n = 3 ∧ 1 ≤ height_visitor n ≤ 4.
Proof.
  intros n. apply (height_visitor_node_count n). reflexivity.
Defined.

(** X2: along every edge of a tree the height goes up: an internal node
    is strictly higher than each of its children, and when it has children
    it is exactly one higher than one of them. *)
Theorem height_visitor_parent_child (children : list node) :
  Z.of_nat (spec_height (internal_node children)) < size_t_modulus →
  (∀ c, c ∈ children →
     height_visitor c < height_visitor (internal_node children))
  ∧ (children ≠ [] →
     ∃ c, c ∈ children
          ∧ height_visitor (internal_node children) = height_visitor c + 1).
Proof.
  intros Hfit.
  assert (∀ c, c ∈ children →
            height_visitor c = Z.of_nat (spec_height c)
            ∧ (spec_height c < spec_height (internal_node children))%nat)
    as Hchild.
  { intros c Hin. pose proof (spec_height_child c children Hin).
    split; [|done]. apply height_visitor_spec_height. lia. }
  rewrite (height_visitor_spec_height (internal_node children)) by done.
  split.
  - intros c Hin. destruct (Hchild c Hin) as [-> ?]. lia.
  - intros Hne.
    assert (spec_height <$> children ≠ []) as Hne' by by destruct children.
    apply max_list_elem_of, list_elem_of_fmap in Hne' as (c & Hmax & Hin).
    exists c. split; [done|].
    destruct (Hchild c Hin) as [-> _]. cbn [spec_height]. lia.
Qed.

Lemma height_visitor_parent_child_witness :
  let shallow := leaf_node "DT" in
  let deep := internal_node [leaf_node "NN"] in
  (∀ c, c ∈ [shallow; deep] →
     height_visitor c < height_visitor (internal_node [shallow; deep]))
  ∧ ([shallow; deep] ≠ [] →
     ∃ c, c ∈ [shallow; deep]
          ∧ height_visitor (internal_node [shallow; deep]) = height_visitor c + 1).
Proof.
  intros shallow deep.
  apply (height_visitor_parent_child [shallow; deep]). reflexivity.
Defined.

(** ** What the height does not depend on *)

Section running_maximum.
Variable f : node → Z.

Lemma each_child_max_ext children children' (a : Z) :
  Forall2 (λ c c', f c = f c') children children' →
  each_child children (λ m c, Z.max m (f c)) a
  = each_child children' (λ m c, Z.max m (f c)) a.
Proof.
  unfold each_child. intros Hall. revert a.
  induction Hall as [|c c' children children' Hc _ IH]; intros a; simpl; [done|].
  by rewrite Hc, IH.
Qed.

Lemma each_child_max_perm children children' (a : Z) :
  children ≡ₚ children' →
  each_child children (λ m c, Z.max m (f c)) a
  = each_child children' (λ m c, Z.max m (f c)) a.
Proof.
  unfold each_child. intros Hperm. revert a.
  induction Hperm as [|c l l' _ IH|c c' l|l l' l'' _ IH _ IH']; intros a; simpl.
  - done.
  - apply IH.
  - f_equal. lia.
  - by rewrite IH, IH'.
Qed.

End running_maximum.

Lemma same_shape_refl n : same_shape n n.
Proof.
  induction n as [children IH|label] using node_ind.
  - apply same_shape_internal with children; [|done].
    induction IH; by constructor.
  - constructor.
Qed.

(** X3: the height the visitor returns does not depend on the order in
    which an internal node holds its children, at any level of the tree,
    nor on the labels of the leaves; two trees that differ in nothing else
    get the same feature key and change every map in the same way. *)
Theorem height_visitor_same_shape (n n' : node) :
  same_shape n n' →
  height_visitor n = height_visitor n'
  ∧ rep {| root := n |} = rep {| root := n' |}
  ∧ ∀ (T : Type) (V : feature_value T) (counts : gmap string T),
      tree_tokenize {| root := n |} counts
      = tree_tokenize {| root := n' |} counts.
Proof.
  intros Hshape.
  assert (height_visitor n = height_visitor n') as Hheight.
  { revert n' Hshape.
    induction n as [children IH|label] using node_ind; intros n' Hshape;
      inversion Hshape as [|? children' ? Hall Hperm]; subst; [|done].
    cbn [height_visitor]. do 2 f_equal.
    rewrite <- (each_child_max_perm _ _ _ 0 Hperm).
    apply each_child_max_ext.
    clear Hperm Hshape. induction Hall as [|c c' l l' Hc _ IHall];
      [constructor|].
    apply Forall_cons in IH as [IHc IHl]. constructor; [by apply IHc|].
    by apply IHall. }
  assert (rep {| root := n |} = rep {| root := n' |}) as Hrep.
  { unfold rep, visit. simpl. by rewrite Hheight. }
  split; [done|]. split; [done|].
  intros T V counts. unfold tree_tokenize. by rewrite Hrep.
Qed.

Lemma height_visitor_same_shape_witness :
  let n := internal_node [leaf_node "DT"; internal_node [leaf_node "NN"]] in
  let n' := internal_node [internal_node [leaf_node "VB"]; leaf_node "IN"] in
  height_visitor n = height_visitor n'.
Proof.
  intros n n'. apply (height_visitor_same_shape n n').
  apply same_shape_internal
    with [leaf_node "IN"; internal_node [leaf_node "VB"]].
  - repeat constructor.
    apply same_shape_internal with [leaf_node "VB"]; repeat constructor.
  - apply perm_swap.
Defined.

(** ** Feature keys *)

(** X4: two trees get the same feature key exactly when the visitor
    gives them the same height: the key tells the height, and trees of
    different heights never count under one key. *)
Theorem rep_eq_iff_height_eq (tree1 tree2 : parse_tree) :
  rep tree1 = rep tree2
  ↔ visit tree1 height_visitor = visit tree2 height_visitor.
Proof.
  unfold rep. split; [|by intros ->].
  intros Heq. simplify_eq/=.
  apply to_string_inj; [apply height_visitor_range..|done].
Qed.

(** ** Several trees, one map *)

Section increment_order.
Context {T : Type} `{!feature_value T}.
Implicit Types counts : gmap string T.

Lemma increment_comm key1 key2 counts :
  increment key1 (increment key2 counts)
  = increment key2 (increment key1 counts).
Proof.
  destruct (decide (key1 = key2)) as [->|Hne]; [done|].
  apply map_eq. intros key.
  rewrite !lookup_increment. repeat case_decide; congruence.
Qed.

End increment_order.

(** X5: it does not matter in which order two trees are featurized into
    a map: the resulting map is the same, for either value type. *)
Theorem tree_tokenize_comm (T : Type) (V : feature_value T)
    (tree1 tree2 : parse_tree) (counts : gmap string T) :
  tree_tokenize tree1 (tree_tokenize tree2 counts)
  = tree_tokenize tree2 (tree_tokenize tree1 counts).
Proof. unfold tree_tokenize. apply increment_comm. Qed.

Lemma tree_tokenize_all_cons {T : Type} `{!feature_value T}
    tree trees (counts : gmap string T) :
  tree_tokenize_all (tree :: trees) counts
  = tree_tokenize_all trees (tree_tokenize tree counts).
Proof. reflexivity. Qed.

Lemma trees_with_key_cons key tree trees :
  trees_with_key key (tree :: trees)
  = ((if decide (rep tree = key) then 1 else 0) + trees_with_key key trees)%nat.
Proof.
  unfold trees_with_key. rewrite filter_cons. by case_decide.
Qed.

(** X6: featurizing a list of trees into a map of [uint64_t] counts, with
    room for as many more occurrences as there are trees, turns the map
    into a histogram of their feature keys: the count under every key
    grows by the number of trees with that key, the total by the number of
    trees, and every count is still a [uint64_t] value. *)
Theorem tree_tokenize_all_counts (trees : list parse_tree)
    (counts : gmap string Z) :
  uint64_counts counts →
  total_count counts + Z.of_nat (length trees) < uint64_modulus →
  uint64_counts (tree_tokenize_all trees counts)
  ∧ total_count (tree_tokenize_all trees counts)
    = total_count counts + Z.of_nat (length trees)
  ∧ ∀ key,
      default 0 (tree_tokenize_all trees counts !! key)
      = default 0 (counts !! key) + Z.of_nat (trees_with_key key trees).
Proof.
  revert counts. induction trees as [|tree trees IH]; intros counts Hvalid Hroom.
  - simpl. split; [done|]. split; [lia|]. intros key.
    unfold trees_with_key. simpl. lia.
  - rewrite tree_tokenize_all_cons. cbn [length] in *.
    change (tree_tokenize tree counts) with (increment (rep tree) counts).
    destruct (total_count_increment (rep tree) counts Hvalid)
      as [Hone Hvalid']; [lia|].
    destruct (IH (increment (rep tree) counts) Hvalid')
      as (Hvalid'' & Htotal & Hkeys); [lia|].
    split; [done|]. split; [lia|]. intros key.
    rewrite Hkeys, default_lookup_increment, trees_with_key_cons by (done || lia).
    case_decide; lia.
Qed.

Lemma tree_tokenize_all_counts_witness :
  let low := {| root := internal_node [leaf_node "DT"; leaf_node "NN"] |} in
  let high := {| root := internal_node [internal_node [leaf_node "VB"]] |} in
  let result := tree_tokenize_all [low; high; low] (∅ : gmap string Z) in
  uint64_counts result
  ∧ total_count result = total_count ∅ + 3
  ∧ ∀ key,
      default 0 (result !! key)
      = default 0 ((∅ : gmap string Z) !! key)
        + Z.of_nat (trees_with_key key [low; high; low]).
Proof.
  intros low high result.
  apply (tree_tokenize_all_counts [low; high; low] ∅).
  - apply map_Forall_empty.
  - rewrite total_count_empty. reflexivity.
Defined.

(** ** The two ends of counting *)

(** X7: in a map of [uint64_t] counts the featurizer never leaves the
    map as it found it; the count under the tree's key goes up by exactly
    one, except from the largest value 2^64 - 1, from which it goes to 0. *)
Theorem tree_tokenize_uint64_step (tree : parse_tree)
    (counts : gmap string Z) :
  tree_tokenize tree counts ≠ counts
  ∧ ∀ v, counts !! rep tree = Some v →
         0 ≤ v < uint64_modulus →
         tree_tokenize tree counts !! rep tree
         = Some (if decide (v = uint64_modulus - 1) then 0 else v + 1).
Proof.
  unfold tree_tokenize. split.
  - intros Hsame.
    assert (increment (rep tree) counts !! rep tree = counts !! rep tree)
      as Hkey by by rewrite Hsame.
    rewrite lookup_increment, decide_True in Hkey by done.
    destruct (counts !! rep tree) as [v|]; [|done].
    simpl in Hkey. unfold uint64_wrap in Hkey. injection Hkey as Hv.
    pose proof (Z.mod_pos_bound (v + 1) uint64_modulus) as Hrange.
    unfold uint64_modulus in *.
    destruct (decide (v + 1 < 2 ^ 64)).
    + rewrite Z.mod_small in Hv; lia.
    + assert (v + 1 = 2 ^ 64) as Hmax by lia.
      rewrite Hmax, Z.mod_same in Hv; lia.
  - intros v Hkey Hv. rewrite lookup_increment, decide_True, Hkey by done.
    simpl. unfold uint64_wrap, uint64_modulus in *. f_equal.
    case_decide as Hmax.
    + subst v. reflexivity.
    + rewrite Z.mod_small; lia.
Qed.

(** X8: in a map of [double] weights the featurizer stops counting at
    2^53: a weight of 2^53 under the tree's key is left as it is, and so
    is the whole map. *)
Theorem tree_tokenize_double_saturates (tree : parse_tree)
    (counts : gmap string float) :
  counts !! rep tree = Some 9007199254740992%float →
  tree_tokenize tree counts = counts.
Proof.
  intros Hkey. unfold tree_tokenize, increment. rewrite Hkey.
  by apply insert_id.
Qed.

Lemma tree_tokenize_double_saturates_witness :
  let tree := {| root := leaf_node "NN" |} in
  let counts : gmap string float :=
    {[ "depth-1" := 9007199254740992%float; "depth-2" := 1%float ]} in
  tree_tokenize tree counts = counts.
Proof.
  intros tree counts.
  apply (tree_tokenize_double_saturates tree counts). reflexivity.
Defined.
